(** * Boyer-Moore majority vote: [majority_element] and [is_majority_element]

    A shallow embedding of [src/majority_element.h] and the properties of
    its two entry points.

    - A range [[begin, end)] is a [list A]; an iterator into it is the
      offset from [begin] ([nat]), so [begin] is [0] and [end] is
      [length l].
    - Dereferencing an iterator is [deref], which fails ([None]) at [end]
      and beyond.  Every function that dereferences returns an [option], so
      that reading through the sentinel shows up as [None].
    - [size_t] counters are integers reduced modulo [2 ^ size_bits]; the
      width is a parameter of the development (class [SizeT]). *)

From Stdlib Require Import ZArith List Bool Lia Sorted Permutation.
From Equations Require Import Equations.
Import ListNotations.

Local Open Scope Z_scope.

(** ** Machine integers: [size_t] *)

Class SizeT := size_bits : N.

Definition size_modulus `{SizeT} : Z := 2 ^ Z.of_N size_bits.

(** Reduction of a mathematical integer to a [size_t] value. *)
Definition size_wrap `{SizeT} (z : Z) : Z := z mod size_modulus.

(** [++c] and [--c] on a [size_t]. *)
Definition size_incr `{SizeT} (c : Z) : Z := size_wrap (c + 1).
Definition size_decr `{SizeT} (c : Z) : Z := size_wrap (c - 1).

(** The number of elements of a range is representable in [size_t]. *)
Definition fits_size_t `{SizeT} {A : Type} (l : list A) : Prop :=
  Z.of_nat (length l) < size_modulus.

(** The usual 64-bit [size_t]. *)
Definition size_t_64 : SizeT := 64%N.

(** ** Iterators *)

(** [*it]: defined inside the range only. *)
Definition deref {A : Type} (l : list A) (it : nat) : option A := nth_error l it.

Notation "x <- e ;; k" :=
  (match e with Some x => k | None => None end)
  (at level 61, e at next level, right associativity).

(** [std::count_if] as a specification device: how many elements satisfy [p]. *)
Fixpoint count_if {A : Type} (p : A -> bool) (l : list A) : nat :=
  match l with
  | [] => O
  | x :: l' => if p x then S (count_if p l') else count_if p l'
  end.

(** ** [majority_element(begin, end, comp)] *)

Section MajorityElement.
Context `{SizeT} {A : Type}.
Variable comp : A -> A -> bool.

(** The two variables of the scanning loop. *)
Record vote : Type := Vote { candidate : nat; confidence : Z }.

(** [candidate = end; confidence = 0]. *)
Definition vote_init (l : list A) : vote :=
  {| candidate := length l; confidence := 0 |}.

(** Body of the scanning loop at position [it]. *)
Definition vote_step (l : list A) (it : nat) (st : vote) : option vote :=
  if confidence st =? 0 then
    Some {| candidate := it; confidence := size_incr (confidence st) |}
  else
    c <- deref l (candidate st) ;;
    x <- deref l it ;;
    if comp c x
    then Some {| candidate := candidate st; confidence := size_incr (confidence st) |}
    else Some {| candidate := candidate st; confidence := size_decr (confidence st) |}.

(** [for (it = ...; it != end; ++it)] with [n] the distance from [it] to
    [end].  Started at [0] with [n] below the length it gives the state
    after the first [n] iterations. *)
Fixpoint vote_loop (l : list A) (n : nat) (it : nat) (st : vote) : option vote :=
  match n with
  | O => Some st
  | S n' => st' <- vote_step l it st ;; vote_loop l n' (S it) st'
  end.

(** The scanning pass. *)
Definition majority_vote (l : list A) : option vote :=
  vote_loop l (length l) 0 (vote_init l).

(** Body of the confirmation loop; the state is [(nmatches, ntotal)]. *)
Definition confirm_step (l : list A) (cand it : nat) (st : Z * Z) : option (Z * Z) :=
  let '(nmatches, ntotal) := st in
  c <- deref l cand ;;
  x <- deref l it ;;
  Some (if comp c x then size_incr nmatches else nmatches, size_incr ntotal).

Fixpoint confirm_loop (l : list A) (cand : nat) (n : nat) (it : nat) (st : Z * Z)
  : option (Z * Z) :=
  match n with
  | O => Some st
  | S n' => st' <- confirm_step l cand it st ;; confirm_loop l cand n' (S it) st'
  end.

(** The confirmation pass: [(nmatches, ntotal)] for a given candidate. *)
Definition majority_confirm (l : list A) (cand : nat) : option (Z * Z) :=
  confirm_loop l cand (length l) 0 (0, 0).

Definition majority_element (l : list A) : option nat :=
  v <- majority_vote l ;;
  r <- majority_confirm l (candidate v) ;;
  let '(nmatches, ntotal) := r in
  Some (if ntotal / 2 <? nmatches then candidate v else length l).

End MajorityElement.

(** ** Default comparators *)

(** [std::equal_to<T>] and [std::less<T>] of a value type. *)
Class ValueType (T : Type) := {
  std_equal_to : T -> T -> bool;
  std_less : T -> T -> bool
}.

#[export] Instance Z_value_type : ValueType Z :=
  {| std_equal_to := Z.eqb; std_less := Z.ltb |}.

(** [majority_element(begin, end)]. *)
Definition majority_element_default `{SizeT} {T : Type} `{ValueType T} (l : list T)
  : option nat :=
  majority_element std_equal_to l.

(** ** [is_majority_element(begin, end, x, comp)] *)

Section EqualRange.
Context {A : Type}.
Variable comp : A -> A -> bool.

(** Modelled from the spec: [std::lower_bound], which belongs to the C++
    standard library and not to this header.  It is the first of the two
    binary searches of the equal-range lookup: the halving search over
    [[first, first + len)] for the first element that is not less than
    [x]. *)
Equations? lower_bound_loop (l : list A) (x : A) (first len : nat) : option nat
  by wf len lt :=
  lower_bound_loop l x first O := Some first;
  lower_bound_loop l x first (S n) with deref l (first + Nat.div2 (S n)) => {
    | None := None;
    | Some m with comp m x => {
      | true := lower_bound_loop l x (S (first + Nat.div2 (S n))) (S n - Nat.div2 (S n) - 1);
      | false := lower_bound_loop l x first (Nat.div2 (S n)) } }.
Proof.
  all: destruct n as [|k]; simpl; try lia;
    pose proof (Nat.div2_decr k k (Nat.le_succ_diag_r k));
    destruct (Nat.div2 k); lia.
Qed.

(** Modelled from the spec: [std::upper_bound], the second binary search:
    the halving search for the first element that [x] is less than. *)
Equations? upper_bound_loop (l : list A) (x : A) (first len : nat) : option nat
  by wf len lt :=
  upper_bound_loop l x first O := Some first;
  upper_bound_loop l x first (S n) with deref l (first + Nat.div2 (S n)) => {
    | None := None;
    | Some m with comp x m => {
      | true := upper_bound_loop l x first (Nat.div2 (S n));
      | false := upper_bound_loop l x (S (first + Nat.div2 (S n))) (S n - Nat.div2 (S n) - 1) } }.
Proof.
  all: destruct n as [|k]; simpl; try lia;
    pose proof (Nat.div2_decr k k (Nat.le_succ_diag_r k));
    destruct (Nat.div2 k); lia.
Qed.

Definition lower_bound (l : list A) (x : A) : option nat :=
  lower_bound_loop l x 0 (length l).

Definition upper_bound (l : list A) (x : A) : option nat :=
  upper_bound_loop l x 0 (length l).

(** Modelled from the spec: [std::equal_range], the sub-range of the
    elements equivalent to [x], as the pair of the lower and the upper
    bound. *)
Definition equal_range (l : list A) (x : A) : option (nat * nat) :=
  lo <- lower_bound l x ;;
  hi <- upper_bound l x ;;
  Some (lo, hi).

(** [std::distance] between two positions of the same range.  Its result
    type is required to hold the distance of any valid range, so it is a
    plain integer here. *)
Definition distance (first last : nat) : Z := Z.of_nat last - Z.of_nat first.

Definition is_majority_element (l : list A) (x : A) : option bool :=
  range <- equal_range l x ;;
  Some (distance (fst range) (snd range) >? Z.shiftr (distance 0 (length l)) 1).

End EqualRange.

(** [is_majority_element(begin, end, x)]. *)
Definition is_majority_element_default {T : Type} `{ValueType T} (l : list T) (x : T)
  : option bool :=
  is_majority_element std_less l x.

(** ** Specification vocabulary *)

Section Vocabulary.
Context `{SizeT} {A : Type}.

(** What holds of the loop variables on entry to iteration [it]: the
    counter is a [size_t] value, and the candidate is either still the
    initial one, before the first iteration, or a position already
    visited. *)
Definition vote_safe (l : list A) (it : nat) (st : vote) : Prop :=
  0 <= confidence st < size_modulus /\
  ((it = O /\ st = vote_init l) \/ (candidate st < it)%nat).

(** Number of elements of the range that [comp] matches with the element
    at position [cand]; [0] when [cand] is not a position of the range. *)
Definition matches_at (comp : A -> A -> bool) (l : list A) (cand : nat) : nat :=
  match deref l cand with
  | Some c => count_if (comp c) l
  | None => O
  end.

(** The vote balance kept by the scanning loop, for a value [v]: with [m]
    the number of elements matching [v] among the first [it], either the
    non-matching ones outnumber them by the confidence at least, or the
    candidate matches [v] and they outnumber the others by the
    confidence at most. *)
Definition vote_balance (comp : A -> A -> bool) (v : A) (l : list A)
           (it : nat) (st : vote) : Prop :=
  let m := Z.of_nat (count_if (comp v) (firstn it l)) in
  confidence st <= Z.of_nat it /\
  (2 * m + confidence st <= Z.of_nat it \/
   exists c, deref l (candidate st) = Some c /\ comp v c = true /\
             2 * m <= Z.of_nat it + confidence st).

(** The elements satisfying [p] come first. *)
Definition partitioned (p : A -> bool) (l : list A) : Prop :=
  forall i j a b, (i <= j)%nat ->
    deref l i = Some a -> deref l j = Some b -> p b = true -> p a = true.

(** The requirements on an ordering comparator: a strict weak order. *)
Record strict_weak_order (less : A -> A -> bool) : Prop := {
  swo_irrefl : forall a, less a a = false;
  swo_trans : forall a b c, less a b = true -> less b c = true -> less a c = true;
  swo_equiv_trans : forall a b c,
    less a b = false -> less b a = false ->
    less b c = false -> less c b = false ->
    less a c = false /\ less c a = false
}.

(** A range sorted with respect to [less], as [std::is_sorted] tests it:
    no element is less than its predecessor. *)
Definition sorted_range (less : A -> A -> bool) (l : list A) : Prop :=
  Sorted (fun a b => less b a = false) l.

End Vocabulary.

(** * Properties *)

(** ** [size_t] arithmetic *)

Section SizeFacts.
Context `{SizeT}.

Lemma size_modulus_pos : 0 < size_modulus.
Proof. unfold size_modulus. apply Z.pow_pos_nonneg; lia. Qed.

Lemma size_wrap_range z : 0 <= size_wrap z < size_modulus.
Proof. unfold size_wrap. apply Z.mod_pos_bound, size_modulus_pos. Qed.

Lemma size_wrap_small z : 0 <= z < size_modulus -> size_wrap z = z.
Proof. intros Hz. unfold size_wrap. now apply Z.mod_small. Qed.

Lemma size_wrap_add_l a b : size_wrap (size_wrap a + b) = size_wrap (a + b).
Proof. unfold size_wrap. apply Zplus_mod_idemp_l. Qed.

Lemma size_incr_range c : 0 <= size_incr c < size_modulus.
Proof. apply size_wrap_range. Qed.

(** A decrement of a nonzero counter is the mathematical one. *)
Lemma size_decr_pos c : 0 < c < size_modulus -> size_decr c = c - 1.
Proof. intros Hc. unfold size_decr. apply size_wrap_small. lia. Qed.

End SizeFacts.

(** ** Iterators and counting *)

Section ListFacts.
Context {A : Type}.

Lemma deref_Some_lt (l : list A) it x : deref l it = Some x -> (it < length l)%nat.
Proof. intros E. apply nth_error_Some. unfold deref in E. congruence. Qed.

Lemma deref_lt_Some (l : list A) it : (it < length l)%nat -> exists x, deref l it = Some x.
Proof.
  intros Hlt. unfold deref. destruct (nth_error l it) eqn:E; eauto.
  apply nth_error_None in E. lia.
Qed.

Lemma deref_end (l : list A) : deref l (length l) = None.
Proof. apply nth_error_None. lia. Qed.

Lemma deref_In (l : list A) it x : deref l it = Some x -> In x l.
Proof. apply nth_error_In. Qed.

(** The range from [it] on starts with [*it]. *)
Lemma skipn_deref (l : list A) it x :
  deref l it = Some x -> skipn it l = x :: skipn (S it) l.
Proof.
  revert it. induction l as [|a l IH]; intros [|it] E; simpl in *; try discriminate.
  - congruence.
  - now apply IH.
Qed.

Lemma firstn_deref (l : list A) it x :
  deref l it = Some x -> firstn (S it) l = firstn it l ++ [x].
Proof.
  revert it. induction l as [|a l IH]; intros [|it] E; simpl in *; try discriminate.
  - congruence.
  - f_equal. now apply IH.
Qed.

Lemma count_if_app (p : A -> bool) l1 l2 :
  count_if p (l1 ++ l2) = (count_if p l1 + count_if p l2)%nat.
Proof. induction l1 as [|a l1 IH]; simpl; [reflexivity|]. destruct (p a); lia. Qed.

Lemma count_if_le_length (p : A -> bool) l : (count_if p l <= length l)%nat.
Proof. induction l as [|a l IH]; simpl; [lia|]. destruct (p a); lia. Qed.

(** Counting is monotone in the predicate. *)
Lemma count_if_mono (p q : A -> bool) l :
  (forall a, In a l -> p a = true -> q a = true) ->
  (count_if p l <= count_if q l)%nat.
Proof.
  induction l as [|a l IH]; intros Hpq; simpl; [lia|].
  assert (IH' : (count_if p l <= count_if q l)%nat)
    by (apply IH; intros b Hb; apply Hpq; now right).
  destruct (p a) eqn:Ep.
  - rewrite (Hpq a (or_introl eq_refl) Ep). lia.
  - destruct (q a); lia.
Qed.

End ListFacts.

(** ** The scanning loop *)

Section VoteFacts.
Context `{SizeT} {A : Type}.
Variable comp : A -> A -> bool.

Lemma vote_safe_init (l : list A) : vote_safe l 0 (vote_init l).
Proof. split; [simpl; pose proof size_modulus_pos; lia | now left]. Qed.

Lemma vote_step_safe l it st :
  (it < length l)%nat -> vote_safe l it st ->
  exists st', vote_step comp l it st = Some st' /\ vote_safe l (S it) st'.
Proof.
  intros Hit [Hc Hcand]. unfold vote_step.
  destruct (confidence st =? 0) eqn:E0.
  - eexists; split; [reflexivity|]. split; simpl; [apply size_incr_range | right; lia].
  - apply Z.eqb_neq in E0.
    assert (Hlt : (candidate st < it)%nat).
    { destruct Hcand as [[_ ->]|Hlt]; [simpl in E0; lia | exact Hlt]. }
    destruct (@deref_lt_Some _ l (candidate st)) as [c ->]; [lia|].
    destruct (@deref_lt_Some _ l it) as [x ->]; [lia|].
    destruct (comp c x); eexists; (split; [reflexivity|]);
      (split; simpl; [apply size_wrap_range | right; lia]).
Qed.

Lemma vote_loop_safe l n : forall it st,
  (it + n <= length l)%nat -> vote_safe l it st ->
  exists st', vote_loop comp l n it st = Some st' /\ vote_safe l (it + n) st'.
Proof.
  induction n as [|n IH]; intros it st Hn Hs; simpl.
  - exists st. rewrite Nat.add_0_r. auto.
  - destruct (vote_step_safe l it st) as (st1 & -> & Hs1); [lia|assumption|].
    destruct (IH (S it) st1) as (st' & E & Hs'); [lia|assumption|].
    exists st'. split; [exact E|]. now replace (it + S n)%nat with (S it + n)%nat by lia.
Qed.

(** The loop is a sequence of steps: [n + m] iterations are [n] followed
    by [m]. *)
Lemma vote_loop_add l n m : forall it st,
  vote_loop comp l (n + m) it st =
  (st' <- vote_loop comp l n it st ;; vote_loop comp l m (it + n) st').
Proof.
  induction n as [|n IH]; intros it st; simpl.
  - now rewrite Nat.add_0_r.
  - destruct (vote_step comp l it st) as [st1|]; [|reflexivity].
    rewrite IH. now replace (S it + n)%nat with (it + S n)%nat by lia.
Qed.

(** Loop rule: a property kept by every iteration holds on exit. *)
Lemma vote_loop_inv (P : nat -> vote -> Prop) l :
  (forall it st st', (it < length l)%nat -> vote_safe l it st -> P it st ->
     vote_step comp l it st = Some st' -> P (S it) st') ->
  forall n it st st', (it + n <= length l)%nat -> vote_safe l it st -> P it st ->
    vote_loop comp l n it st = Some st' -> P (it + n)%nat st'.
Proof.
  intros Hstep. induction n as [|n IH]; intros it st st' Hn Hs HP E; simpl in E.
  - injection E as <-. now rewrite Nat.add_0_r.
  - destruct (vote_step_safe l it st) as (st1 & E1 & Hs1); [lia|assumption|].
    rewrite E1 in E.
    replace (it + S n)%nat with (S it + n)%nat by lia.
    apply (IH (S it) st1); try assumption; [lia|].
    apply (Hstep it st); try assumption; lia.
Qed.

Lemma majority_vote_safe l :
  exists st, majority_vote comp l = Some st /\ vote_safe l (length l) st.
Proof.
  destruct (vote_loop_safe l (length l) 0%nat (vote_init l))
    as (st & E & Hs); [simpl; lia | apply vote_safe_init |].
  exists st. split; [exact E | exact Hs].
Qed.

(** After a scan of a non-empty range the candidate is inside it. *)
Lemma majority_vote_candidate l st :
  majority_vote comp l = Some st ->
  (l = [] /\ st = vote_init l) \/ (candidate st < length l)%nat.
Proof.
  intros E. destruct (majority_vote_safe l) as (st' & E' & _ & Hs).
  rewrite E in E'. injection E' as <-.
  destruct Hs as [[Hl ->]|Hlt]; [left | now right].
  split; [|reflexivity]. now apply length_zero_iff_nil.
Qed.

End VoteFacts.

(** ** The confirmation loop *)

Section ConfirmFacts.
Context `{SizeT} {A : Type}.
Variable comp : A -> A -> bool.

Lemma confirm_loop_count l cand c :
  deref l cand = Some c ->
  forall n it nmatches ntotal,
    (it + n = length l)%nat ->
    0 <= nmatches < size_modulus -> 0 <= ntotal < size_modulus ->
    confirm_loop comp l cand n it (nmatches, ntotal) =
    Some (size_wrap (nmatches + Z.of_nat (count_if (comp c) (skipn it l))),
          size_wrap (ntotal + Z.of_nat n)).
Proof.
  intros Ec. induction n as [|n IH]; intros it nm nt Hn Hnm Hnt.
  - simpl. replace it with (length l) by lia. rewrite skipn_all. simpl.
    rewrite !Z.add_0_r, !size_wrap_small by assumption. reflexivity.
  - destruct (@deref_lt_Some _ l it) as [x Ex]; [lia|].
    cbn [confirm_loop confirm_step]. rewrite Ec, Ex.
    rewrite (skipn_deref l it x Ex). cbn [count_if].
    rewrite IH; [| lia | destruct (comp c x); [apply size_incr_range | assumption]
                     | apply size_incr_range].
    unfold size_incr. rewrite !size_wrap_add_l.
    destruct (comp c x); [rewrite size_wrap_add_l|]; do 2 f_equal; f_equal; lia.
Qed.

Lemma majority_confirm_count l cand c :
  deref l cand = Some c ->
  majority_confirm comp l cand =
  Some (size_wrap (Z.of_nat (count_if (comp c) l)), size_wrap (Z.of_nat (length l))).
Proof.
  intros Ec. unfold majority_confirm.
  rewrite (confirm_loop_count l cand c Ec); [reflexivity | reflexivity | |];
    pose proof size_modulus_pos; lia.
Qed.

(** The function in closed form: the scan's candidate, kept when the
    wrapped count of its matches exceeds half the wrapped length. *)
Lemma majority_element_eq l st :
  majority_vote comp l = Some st ->
  majority_element comp l =
  Some (if size_wrap (Z.of_nat (length l)) / 2 <? size_wrap (Z.of_nat (matches_at comp l (candidate st)))
        then candidate st else length l).
Proof.
  intros E. unfold majority_element. rewrite E.
  destruct (majority_vote_candidate comp l st E) as [[-> ->]|Hlt].
  - reflexivity.
  - destruct (@deref_lt_Some _ l (candidate st) Hlt) as [c Ec].
    rewrite (majority_confirm_count l _ c Ec). unfold matches_at. rewrite Ec. reflexivity.
Qed.

Lemma majority_element_total l : exists p, majority_element comp l = Some p.
Proof.
  destruct (majority_vote_safe comp l) as (st & E & _).
  rewrite (majority_element_eq l st E). eauto.
Qed.

End ConfirmFacts.

(** ** Boyer-Moore: the vote balance *)

Section BoyerMoore.
Context `{SizeT} {A : Type}.
Variable comp : A -> A -> bool.
Hypothesis comp_sym : forall a b, comp a b = true -> comp b a = true.
Hypothesis comp_trans : forall a b c, comp a b = true -> comp b c = true -> comp a c = true.

Lemma vote_balance_init v (l : list A) : vote_balance comp v l 0 (vote_init l).
Proof. unfold vote_balance. simpl. split; [lia | left; lia]. Qed.

Lemma vote_balance_step v l it st st' :
  fits_size_t l -> (it < length l)%nat ->
  vote_safe l it st -> vote_balance comp v l it st ->
  vote_step comp l it st = Some st' ->
  vote_balance comp v l (S it) st'.
Proof.
  unfold fits_size_t, vote_balance. intros Hfit Hit [Hk Hcand] [Hle Hbal] E.
  destruct (deref_lt_Some l it Hit) as [x Ex].
  rewrite (firstn_deref l it x Ex), count_if_app. cbn [count_if].
  set (m := count_if (comp v) (firstn it l)) in *.
  unfold vote_step in E. destruct (confidence st =? 0) eqn:E0.
  - apply Z.eqb_eq in E0. injection E as <-. cbn [candidate confidence].
    rewrite E0 in *. unfold size_incr. rewrite size_wrap_small by lia.
    assert (Hm : 2 * Z.of_nat m <= Z.of_nat it)
      by (destruct Hbal as [?|(? & _ & _ & ?)]; lia).
    split; [lia|]. destruct (comp v x) eqn:Evx.
    + right. exists x. repeat split; [exact Ex | exact Evx | lia].
    + left. lia.
  - apply Z.eqb_neq in E0. destruct (deref l (candidate st)) as [c|] eqn:Ec; [|discriminate].
    rewrite Ex in E. destruct (comp c x) eqn:Ecx; injection E as <-; cbn [candidate confidence].
    + unfold size_incr. rewrite size_wrap_small by lia. split; [lia|].
      destruct (comp v c) eqn:Evc.
      * right. exists c. repeat split; [exact Ec | exact Evc |].
        destruct (comp v x); destruct Hbal as [?|(? & _ & _ & ?)]; lia.
      * left. destruct Hbal as [Hl|(c' & Ec' & Evc' & _)]; [|congruence].
        destruct (comp v x) eqn:Evx; [|lia].
        rewrite (comp_trans v x c Evx (comp_sym c x Ecx)) in Evc. discriminate.
    + rewrite size_decr_pos by lia. split; [lia|].
      destruct (comp v c) eqn:Evc.
      * right. exists c. repeat split; [exact Ec | exact Evc |].
        destruct (comp v x) eqn:Evx.
        -- rewrite (comp_trans c v x (comp_sym v c Evc) Evx) in Ecx. discriminate.
        -- destruct Hbal as [?|(? & _ & _ & ?)]; lia.
      * left. destruct Hbal as [Hl|(c' & Ec' & Evc' & _)]; [|congruence].
        destruct (comp v x); lia.
Qed.

(** On exit of the scan, a value matched by more than half of the
    elements is matched by the candidate. *)
Lemma majority_vote_balance v l st :
  fits_size_t l ->
  (length l < 2 * count_if (comp v) l)%nat ->
  majority_vote comp l = Some st ->
  exists c, deref l (candidate st) = Some c /\ comp v c = true.
Proof.
  intros Hfit Hmaj E.
  assert (Hb : vote_balance comp v l (0 + length l) st).
  { apply (vote_loop_inv comp (vote_balance comp v l) l) with (st := vote_init l);
      [ | simpl; lia | apply vote_safe_init | apply vote_balance_init | exact E].
    intros it s s' Hit Hs Hb Es. now apply (vote_balance_step v l it s s'). }
  destruct (majority_vote_safe comp l) as (st' & E' & Hk & _).
  rewrite E in E'. injection E' as <-.
  change (0 + length l)%nat with (length l) in Hb.
  unfold vote_balance in Hb. cbv zeta in Hb. rewrite firstn_all in Hb.
  destruct Hb as [_ [Hl|(c & Ec & Evc & _)]]; [lia | eauto].
Qed.

End BoyerMoore.

(** ** Binary search *)

Section PartitionPoint.
Context {A : Type}.

Lemma partitioned_tail (p : A -> bool) a l : partitioned p (a :: l) -> partitioned p l.
Proof. intros Hp i j x y Hij Ex Ey. apply (Hp (S i) (S j)); [lia | exact Ex | exact Ey]. Qed.

Lemma count_if_none (p : A -> bool) l :
  (forall b, In b l -> p b = false) -> count_if p l = O.
Proof.
  induction l as [|h l IH]; intros Hall; simpl; [reflexivity|].
  rewrite (Hall h (or_introl eq_refl)). apply IH. intros b Hb. apply Hall. now right.
Qed.

(** In a partitioned range the elements satisfying [p] are those at the
    positions below their number. *)
Lemma partitioned_count (p : A -> bool) l :
  partitioned p l ->
  forall i a, deref l i = Some a -> (p a = true <-> (i < count_if p l)%nat).
Proof.
  induction l as [|h l IH]; intros Hp i a Ea.
  - destruct i; discriminate.
  - cbn [count_if]. destruct (p h) eqn:Eh.
    + destruct i as [|i]; simpl in Ea.
      * injection Ea as <-. split; [lia | now intros _].
      * rewrite (IH (partitioned_tail p h l Hp) i a Ea). lia.
    + assert (Hall : forall b, In b l -> p b = false).
      { intros b Hb. destruct (In_nth_error _ _ Hb) as [j Ej].
        destruct (p b) eqn:Eb; [|reflexivity].
        rewrite (Hp O (S j) h b (Nat.le_0_l _) eq_refl Ej Eb) in Eh. discriminate. }
      rewrite (count_if_none p l Hall).
      assert (Ea' : p a = false).
      { destruct i as [|i]; simpl in Ea.
        - now injection Ea as <-.
        - apply Hall. exact (nth_error_In _ _ Ea). }
      rewrite Ea'. split; [discriminate | lia].
Qed.

(** Two nested predicates: the outer count splits into the inner one and
    the elements in between. *)
Lemma count_if_split (p q : A -> bool) l :
  (forall a, p a = true -> q a = true) ->
  count_if q l = (count_if p l + count_if (fun a => q a && negb (p a)) l)%nat.
Proof.
  intros Hpq. induction l as [|h l IH]; simpl; [reflexivity|].
  destruct (p h) eqn:Ep.
  - rewrite (Hpq h Ep). simpl. lia.
  - destruct (q h); simpl; lia.
Qed.

Lemma count_if_ext (p q : A -> bool) l :
  (forall a, p a = q a) -> count_if p l = count_if q l.
Proof. intros E. induction l as [|h l IH]; simpl; [reflexivity|]. now rewrite E, IH. Qed.

Variable comp : A -> A -> bool.

(** [std::lower_bound] finds the partition point of [comp(e, x)]. *)
Lemma lower_bound_loop_count l x :
  partitioned (fun e => comp e x) l ->
  forall len first,
    (first + len <= length l)%nat ->
    (first <= count_if (fun e => comp e x) l <= first + len)%nat ->
    lower_bound_loop comp l x first len = Some (count_if (fun e => comp e x) l).
Proof.
  intros Hp len. induction len as [len IH] using lt_wf_ind. intros first Hlen Hcnt.
  destruct len as [|n]; simp lower_bound_loop; [f_equal; lia|].
  assert (Hhalf : (Nat.div2 (S n) <= n)%nat) by (apply Nat.div2_decr; lia).
  destruct (deref_lt_Some l (first + Nat.div2 (S n))) as [m Em];
    [revert Hhalf; generalize (Nat.div2 (S n)); intros; lia|].
  rewrite Em. cbn -[Nat.div2 Nat.sub].
  pose proof (partitioned_count _ l Hp _ m Em) as Hm. cbv beta in Hm.
  destruct (comp m x); cbn -[Nat.div2 Nat.sub].
  - assert (Hlt : (first + Nat.div2 (S n) < count_if (fun e => comp e x) l)%nat)
      by now apply Hm.
    apply IH; revert Hhalf Hlt; generalize (Nat.div2 (S n)); intros; lia.
  - assert (Hge : (count_if (fun e => comp e x) l <= first + Nat.div2 (S n))%nat).
    { apply Nat.nlt_ge. intros Hlt. apply Hm in Hlt. discriminate. }
    apply IH; revert Hhalf Hge; generalize (Nat.div2 (S n)); intros; lia.
Qed.

(** [std::upper_bound] finds the partition point of [!comp(x, e)]. *)
Lemma upper_bound_loop_count l x :
  partitioned (fun e => negb (comp x e)) l ->
  forall len first,
    (first + len <= length l)%nat ->
    (first <= count_if (fun e => negb (comp x e)) l <= first + len)%nat ->
    upper_bound_loop comp l x first len = Some (count_if (fun e => negb (comp x e)) l).
Proof.
  intros Hp len. induction len as [len IH] using lt_wf_ind. intros first Hlen Hcnt.
  destruct len as [|n]; simp upper_bound_loop; [f_equal; lia|].
  assert (Hhalf : (Nat.div2 (S n) <= n)%nat) by (apply Nat.div2_decr; lia).
  destruct (deref_lt_Some l (first + Nat.div2 (S n))) as [m Em];
    [revert Hhalf; generalize (Nat.div2 (S n)); intros; lia|].
  rewrite Em. cbn -[Nat.div2 Nat.sub].
  pose proof (partitioned_count _ l Hp _ m Em) as Hm. cbv beta in Hm.
  destruct (comp x m); cbn -[Nat.div2 Nat.sub].
  - assert (Hge : (count_if (fun e => negb (comp x e)) l <= first + Nat.div2 (S n))%nat).
    { apply Nat.nlt_ge. intros Hlt. apply Hm in Hlt. discriminate. }
    apply IH; revert Hhalf Hge; generalize (Nat.div2 (S n)); intros; lia.
  - assert (Hlt : (first + Nat.div2 (S n) < count_if (fun e => negb (comp x e)) l)%nat)
      by now apply Hm.
    apply IH; revert Hhalf Hlt; generalize (Nat.div2 (S n)); intros; lia.
Qed.

Lemma equal_range_count l x :
  partitioned (fun e => comp e x) l ->
  partitioned (fun e => negb (comp x e)) l ->
  equal_range comp l x =
  Some (count_if (fun e => comp e x) l, count_if (fun e => negb (comp x e)) l).
Proof.
  intros Hlo Hhi. unfold equal_range, lower_bound, upper_bound.
  rewrite (lower_bound_loop_count l x Hlo), (upper_bound_loop_count l x Hhi);
    [reflexivity | | | |]; simpl; try lia.
  - split; [lia | apply count_if_le_length].
  - split; [lia | apply count_if_le_length].
Qed.

End PartitionPoint.

(** ** Sorted ranges *)

Section SortedFacts.
Context {A : Type}.
Variable less : A -> A -> bool.
Hypothesis less_swo : strict_weak_order less.

Lemma less_asym a b : less a b = true -> less b a = false.
Proof.
  intros Hab. destruct (less b a) eqn:Hba; [|reflexivity].
  rewrite <- (swo_irrefl less less_swo a). symmetry.
  exact (swo_trans less less_swo a b a Hab Hba).
Qed.

(** An element not above [a] that is below [x] puts [a] below [x]. *)
Lemma less_below a b x : less b a = false -> less b x = true -> less a x = true.
Proof.
  intros Hba Hbx. destruct (less a x) eqn:Hax; [reflexivity|].
  destruct (less a b) eqn:Hab.
  - pose proof (swo_trans less less_swo a b x Hab Hbx) as E. congruence.
  - destruct (less x a) eqn:Hxa.
    + pose proof (swo_trans less less_swo b x a Hbx Hxa) as E. congruence.
    + destruct (swo_equiv_trans less less_swo b a x Hba Hab Hax Hxa) as [E _]. congruence.
Qed.

(** An element not below [a] is above whatever [a] is above. *)
Lemma less_above a b x : less b a = false -> less x a = true -> less x b = true.
Proof.
  intros Hba Hxa. destruct (less x b) eqn:Hxb; [reflexivity|].
  destruct (less a b) eqn:Hab.
  - pose proof (swo_trans less less_swo x a b Hxa Hab) as E. congruence.
  - destruct (less b x) eqn:Hbx.
    + pose proof (swo_trans less less_swo b x a Hbx Hxa) as E. congruence.
    + destruct (swo_equiv_trans less less_swo x b a Hxb Hbx Hba Hab) as [E _]. congruence.
Qed.

Lemma sorted_range_strong l :
  sorted_range less l -> StronglySorted (fun a b => less b a = false) l.
Proof.
  apply Sorted_StronglySorted. intros a b c Hba Hcb.
  destruct (less c a) eqn:Hca; [|reflexivity].
  pose proof (less_above a b c Hba Hca) as E. congruence.
Qed.

(** In a sorted range no element is less than an earlier one. *)
Lemma sorted_range_deref l :
  sorted_range less l ->
  forall i j a b, (i < j)%nat -> deref l i = Some a -> deref l j = Some b ->
                  less b a = false.
Proof.
  intros Hs. apply sorted_range_strong in Hs.
  induction Hs as [|h t Ht IH Hall]; intros i j a b Hij Ea Eb.
  - destruct i; discriminate.
  - destruct j as [|j]; [lia|]. simpl in Eb. destruct i as [|i]; simpl in Ea.
    + injection Ea as <-. rewrite Forall_forall in Hall.
      apply Hall. exact (nth_error_In _ _ Eb).
    + apply (IH i j); [lia | exact Ea | exact Eb].
Qed.

Lemma sorted_partitioned_lower l x :
  sorted_range less l -> partitioned (fun e => less e x) l.
Proof.
  intros Hs i j a b Hij Ea Eb Hb.
  destruct (Nat.eq_dec i j) as [->|Hne]; [congruence|].
  apply (less_below a b x); [|exact Hb].
  apply (sorted_range_deref l Hs i j); [lia | exact Ea | exact Eb].
Qed.

Lemma sorted_partitioned_upper l x :
  sorted_range less l -> partitioned (fun e => negb (less x e)) l.
Proof.
  intros Hs i j a b Hij Ea Eb Hb.
  destruct (Nat.eq_dec i j) as [->|Hne]; [congruence|].
  apply negb_true_iff in Hb. apply negb_true_iff.
  destruct (less x a) eqn:Hxa; [|reflexivity].
  assert (E : less x b = true); [|congruence].
  apply (less_above a b x); [|exact Hxa].
  apply (sorted_range_deref l Hs i j); [lia | exact Ea | exact Eb].
Qed.

(** The equal range of a sorted range holds the elements equivalent to
    [x], and their number decides [is_majority_element]. *)
Lemma is_majority_element_equiv l x :
  sorted_range less l ->
  is_majority_element less l x =
  Some (length l / 2 <? count_if (fun e => negb (less e x) && negb (less x e)) l)%nat.
Proof.
  intros Hs. unfold is_majority_element.
  rewrite (equal_range_count less l x (sorted_partitioned_lower l x Hs)
                             (sorted_partitioned_upper l x Hs)).
  cbn [fst snd]. f_equal. unfold distance.
  rewrite (count_if_split (fun e => less e x) (fun e => negb (less x e)) l)
    by (intros a Ha; apply negb_true_iff; now apply less_asym).
  rewrite (count_if_ext (fun e => negb (less x e) && negb (less e x))
                         (fun e => negb (less e x) && negb (less x e)) l)
    by (intros a; apply andb_comm).
  set (lo := count_if (fun e => less e x) l).
  set (eq := count_if _ l).
  rewrite Z.shiftr_div_pow2 by lia. change (2 ^ 1) with 2.
  rewrite Z.gtb_ltb.
  replace (Z.of_nat (length l) - Z.of_nat 0) with (Z.of_nat (length l)) by lia.
  replace (Z.of_nat (lo + eq) - Z.of_nat lo) with (Z.of_nat eq) by lia.
  change 2 with (Z.of_nat 2). rewrite <- Nat2Z.inj_div.
  destruct (Nat.ltb_spec (length l / 2) eq); [apply Z.ltb_lt | apply Z.ltb_ge]; lia.
Qed.

End SortedFacts.

Lemma Z_ltb_strict_weak_order : strict_weak_order Z.ltb.
Proof.
  split.
  - intros a. apply Z.ltb_irrefl.
  - intros a b c Hab Hbc. apply Z.ltb_lt in Hab, Hbc. apply Z.ltb_lt. lia.
  - intros a b c Hab Hba Hbc Hcb. apply Z.ltb_ge in Hab, Hba, Hbc, Hcb.
    split; apply Z.ltb_ge; lia.
Qed.

Lemma Z_eqb_equiv_ltb a b : Z.eqb a b = true <-> Z.ltb a b = false /\ Z.ltb b a = false.
Proof. rewrite Z.eqb_eq, !Z.ltb_ge. lia. Qed.

Lemma Z_eqb_sym a b : Z.eqb a b = true -> Z.eqb b a = true.
Proof. rewrite !Z.eqb_eq. congruence. Qed.

Lemma Z_eqb_trans a b c : Z.eqb a b = true -> Z.eqb b c = true -> Z.eqb a c = true.
Proof. rewrite !Z.eqb_eq. congruence. Qed.

Lemma Nat_ltb_half n m : (n / 2 <? m)%nat = (n <? 2 * m)%nat.
Proof.
  destruct (Nat.ltb_spec n (2 * m)) as [Hlt|Hge].
  - apply Nat.ltb_lt. apply Nat.Div0.div_lt_upper_bound. lia.
  - apply Nat.ltb_ge. apply Nat.div_le_lower_bound; lia.
Qed.

(** * The entry points *)

Section MajorityElementSpec.
Context `{SizeT} {A : Type}.
Variable comp : A -> A -> bool.

(** Within the range of [size_t] the counters of the confirmation pass
    are the true counts, and the verdict compares them as naturals. *)
Lemma majority_element_fits l st :
  fits_size_t l ->
  majority_vote comp l = Some st ->
  majority_element comp l =
  Some (if (length l / 2 <? matches_at comp l (candidate st))%nat
        then candidate st else length l).
Proof.
  unfold fits_size_t. intros Hfit E. rewrite (majority_element_eq comp l st E).
  assert (Hm : (matches_at comp l (candidate st) <= length l)%nat).
  { unfold matches_at. destruct (deref l (candidate st)); [apply count_if_le_length | lia]. }
  rewrite !size_wrap_small by lia.
  change 2 with (Z.of_nat 2). rewrite <- Nat2Z.inj_div.
  destruct (Nat.ltb_spec (length l / 2) (matches_at comp l (candidate st))) as [Hlt|Hge].
  - replace (_ <? _) with true; [reflexivity|]. symmetry. apply Z.ltb_lt. lia.
  - replace (_ <? _) with false; [reflexivity|]. symmetry. apply Z.ltb_ge. lia.
Qed.

End MajorityElementSpec.

(** C1.  Let [comp] be an equality comparator (symmetric and transitive;
    reflexivity is not needed) and [l] a range whose length is a [size_t]
    value.  If some value [v] matches strictly more than half of the
    elements of [l], then [majority_element] returns a position inside the
    range, not the end sentinel, and the element there matches [v]. *)
Theorem majority_element_finds_majority `{SizeT} {A : Type}
        (comp : A -> A -> bool) (l : list A) (v : A) :
  (forall a b, comp a b = true -> comp b a = true) ->
  (forall a b c, comp a b = true -> comp b c = true -> comp a c = true) ->
  fits_size_t l ->
  (length l < 2 * count_if (comp v) l)%nat ->
  exists p e,
    majority_element comp l = Some p /\ (p < length l)%nat /\ p <> length l /\
    deref l p = Some e /\ comp v e = true /\ comp e v = true.
Proof.
  intros Hsym Htrans Hfit Hmaj.
  destruct (majority_vote_safe comp l) as (st & E & _).
  destruct (majority_vote_balance comp Hsym Htrans v l st Hfit Hmaj E) as (c & Ec & Evc).
  pose proof (deref_Some_lt l _ c Ec) as Hlt.
  exists (candidate st), c.
  rewrite (majority_element_fits comp l st Hfit E).
  assert (Hcnt : (count_if (comp v) l <= matches_at comp l (candidate st))%nat).
  { unfold matches_at. rewrite Ec. apply count_if_mono. intros a _ Hva.
    exact (Htrans c v a (Hsym v c Evc) Hva). }
  rewrite Nat_ltb_half.
  replace (length l <? 2 * matches_at comp l (candidate st))%nat with true
    by (symmetry; apply Nat.ltb_lt; lia).
  repeat split; auto; lia.
Qed.

Lemma majority_element_finds_majority_witness :
  exists p e,
    majority_element (H:=size_t_64) Z.eqb [3; 3; 4; 2; 3; 3; 4; 2; 3] = Some p /\
    (p < 9)%nat /\ p <> 9%nat /\
    deref [3; 3; 4; 2; 3; 3; 4; 2; 3] p = Some e /\
    Z.eqb 3 e = true /\ Z.eqb e 3 = true.
Proof.
  apply (majority_element_finds_majority (H:=size_t_64) Z.eqb
           [3; 3; 4; 2; 3; 3; 4; 2; 3] 3).
  - exact Z_eqb_sym.
  - exact Z_eqb_trans.
  - unfold fits_size_t. vm_compute. reflexivity.
  - simpl. lia.
Defined.

(** C2.  If no element of the range matches more than [length / 2] of its
    elements, [majority_element] returns the end sentinel; the length is a
    [size_t] value. *)
Theorem majority_element_no_majority `{SizeT} {A : Type}
        (comp : A -> A -> bool) (l : list A) :
  fits_size_t l ->
  (forall e, In e l -> (count_if (comp e) l <= length l / 2)%nat) ->
  majority_element comp l = Some (length l).
Proof.
  intros Hfit Hnone.
  destruct (majority_vote_safe comp l) as (st & E & _).
  rewrite (majority_element_fits comp l st Hfit E).
  replace (length l / 2 <? matches_at comp l (candidate st))%nat with false; [reflexivity|].
  symmetry. apply Nat.ltb_ge. unfold matches_at.
  destruct (deref l (candidate st)) as [c|] eqn:Ec; [|lia].
  apply Hnone. exact (deref_In l _ c Ec).
Qed.

Lemma majority_element_no_majority_witness :
  majority_element (H:=size_t_64) Z.eqb [1; 2; 3; 4] = Some 4%nat.
Proof.
  apply (majority_element_no_majority (H:=size_t_64) Z.eqb [1; 2; 3; 4]).
  - unfold fits_size_t. vm_compute. reflexivity.
  - intros e [<-|[<-|[<-|[<-|[]]]]]; simpl; lia.
Defined.

(** C3.  On a range sorted by a strict weak order [less], with [eqv] the
    equality that [less] induces ([e == x] exactly when neither is less
    than the other), [is_majority_element] returns [true] if and only if
    the number of elements [e] with [e == x] exceeds [length / 2]. *)
Theorem is_majority_element_agrees_with_count {A : Type}
        (less eqv : A -> A -> bool) (l : list A) (x : A) :
  strict_weak_order less ->
  (forall a b, eqv a b = true <-> less a b = false /\ less b a = false) ->
  sorted_range less l ->
  is_majority_element less l x =
  Some (length l / 2 <? count_if (fun e => eqv e x) l)%nat.
Proof.
  intros Hswo Heqv Hs. rewrite (is_majority_element_equiv less Hswo l x Hs).
  do 2 f_equal. apply count_if_ext. intros a.
  destruct (eqv a x) eqn:E.
  - apply Heqv in E as [-> ->]. reflexivity.
  - destruct (less a x) eqn:E1; [reflexivity|].
    destruct (less x a) eqn:E2; [reflexivity|].
    assert (Et : eqv a x = true) by (apply Heqv; now split). congruence.
Qed.

Lemma is_majority_element_agrees_with_count_witness :
  is_majority_element Z.ltb [1; 1; 1; 2; 2] 1 = Some true.
Proof.
  apply (is_majority_element_agrees_with_count Z.ltb Z.eqb [1; 1; 1; 2; 2] 1).
  - exact Z_ltb_strict_weak_order.
  - exact Z_eqb_equiv_ltb.
  - unfold sorted_range. repeat constructor.
Defined.

(** C4.  Both verdicts use the strict floor-half threshold.  With
    [nmatches] the matches of the scan's candidate in a range [l] whose
    length is a [size_t] value, [majority_element] keeps the candidate
    exactly when [length l / 2 < nmatches]; with [nequal] the elements
    equivalent to [x] in a sorted range [s], [is_majority_element] is
    [length s / 2 < nequal].  The floor-half test is the test "strictly
    more than half" ([length < 2 * count]), so a value on exactly half of
    the positions is rejected; [is_majority_element([1,1,2,2,2], 1)] is
    [false]. *)
Theorem majority_threshold_strict_floor_half `{SizeT} {A : Type}
        (comp less : A -> A -> bool) (l s : list A) (x : A) (st : vote) :
  fits_size_t l ->
  majority_vote comp l = Some st ->
  strict_weak_order less ->
  sorted_range less s ->
  majority_element comp l =
    Some (if (length l / 2 <? matches_at comp l (candidate st))%nat
          then candidate st else length l) /\
  is_majority_element less s x =
    Some (length s / 2 <? count_if (fun e => negb (less e x) && negb (less x e)) s)%nat /\
  (length l / 2 <? matches_at comp l (candidate st))%nat =
    (length l <? 2 * matches_at comp l (candidate st))%nat /\
  (length s / 2 <? count_if (fun e => negb (less e x) && negb (less x e)) s)%nat =
    (length s <? 2 * count_if (fun e => negb (less e x) && negb (less x e)) s)%nat /\
  ((2 * matches_at comp l (candidate st) = length l)%nat ->
   majority_element comp l = Some (length l)) /\
  ((2 * count_if (fun e => negb (less e x) && negb (less x e)) s = length s)%nat ->
   is_majority_element less s x = Some false) /\
  is_majority_element Z.ltb [1; 1; 2; 2; 2] 1 = Some false.
Proof.
  intros Hfit E Hswo Hs.
  pose proof (majority_element_fits comp l st Hfit E) as Hmaj.
  pose proof (is_majority_element_equiv less Hswo s x Hs) as His.
  repeat split.
  - exact Hmaj.
  - exact His.
  - apply Nat_ltb_half.
  - apply Nat_ltb_half.
  - intros Hhalf. rewrite Hmaj, Nat_ltb_half.
    replace (_ <? _)%nat with false; [reflexivity|]. symmetry. apply Nat.ltb_ge. lia.
  - intros Hhalf. rewrite His, Nat_ltb_half.
    replace (_ <? _)%nat with false; [reflexivity|]. symmetry. apply Nat.ltb_ge. lia.
Qed.

Lemma majority_threshold_strict_floor_half_witness :
  majority_element (H:=size_t_64) Z.eqb [1; 1; 2; 2] = Some 4%nat /\
  is_majority_element Z.ltb [1; 1; 2; 2] 1 = Some false /\
  is_majority_element Z.ltb [1; 1; 2; 2; 2] 1 = Some false.
Proof.
  destruct (majority_threshold_strict_floor_half (H:=size_t_64) Z.eqb Z.ltb
              [1; 1; 2; 2] [1; 1; 2; 2] 1 {| candidate := 0; confidence := 0 |})
    as (_ & _ & _ & _ & Hl & Hs & Hex).
  - unfold fits_size_t. vm_compute. reflexivity.
  - vm_compute. reflexivity.
  - exact Z_ltb_strict_weak_order.
  - unfold sorted_range. repeat constructor.
  - split; [apply Hl; reflexivity | split; [apply Hs; reflexivity | exact Hex]].
Defined.

(** C5.  On the empty range the scan leaves the candidate at [end], the
    confirmation pass counts [nmatches = 0] and [ntotal = 0], [0 / 2 < 0]
    is false, and [majority_element] returns the end sentinel; nothing
    fails on the way. *)
Theorem majority_element_empty `{SizeT} {A : Type} (comp : A -> A -> bool) :
  majority_vote comp [] = Some (vote_init (@nil A)) /\
  majority_confirm comp [] (candidate (vote_init (@nil A))) = Some (0, 0) /\
  (0 / 2 <? 0) = false /\
  majority_element comp [] = Some (length (@nil A)).
Proof. repeat split. Qed.

(** C6.  The overloads without a comparator are the comparator forms at
    [std::equal_to] and [std::less] of the value type. *)
Theorem default_comparator_overloads `{SizeT} {T : Type} `{ValueType T}
        (l : list T) (x : T) :
  majority_element_default l = majority_element std_equal_to l /\
  is_majority_element_default l x = is_majority_element std_less l x.
Proof. split; reflexivity. Qed.

(** C7.  [majority_element] never reads through the end sentinel.  A read
    at [end] fails, and no read of either pass fails: both passes and the
    function return.  On the empty range the confirmation pass reads
    nothing, whatever the candidate; on a non-empty range the first
    iteration of the scan sets the candidate to [begin], and the candidate
    handed to the confirmation pass is a position of the range. *)
Theorem sentinel_never_dereferenced `{SizeT} {A : Type}
        (comp : A -> A -> bool) (l : list A) :
  deref l (length l) = None /\
  (exists st r p,
     majority_vote comp l = Some st /\
     majority_confirm comp l (candidate st) = Some r /\
     majority_element comp l = Some p /\
     (l <> [] -> (candidate st < length l)%nat /\
                 exists c, deref l (candidate st) = Some c)) /\
  (l = [] -> forall cand, majority_confirm comp l cand = Some (0, 0)) /\
  (l <> [] -> vote_step comp l 0 (vote_init l) =
              Some {| candidate := 0; confidence := size_incr 0 |}).
Proof.
  split; [apply deref_end|]. split; [|split].
  - destruct (majority_vote_safe comp l) as (st & E & _).
    destruct (majority_element_total comp l) as [p Ep].
    exists st. destruct (majority_vote_candidate comp l st E) as [[-> ->]|Hlt].
    + exists (0, 0), p.
      split; [exact E | split; [reflexivity | split; [exact Ep | intros Hne; now elim Hne]]].
    + destruct (deref_lt_Some l _ Hlt) as [c Ec].
      eexists; exists p. rewrite (majority_confirm_count comp l _ c Ec).
      split; [exact E | split; [reflexivity | split; [exact Ep | intros _; eauto]]].
  - intros -> cand. reflexivity.
  - intros _. reflexivity.
Qed.

Lemma sentinel_never_dereferenced_witness :
  exists p, majority_element (H:=size_t_64) Z.eqb [7] = Some p.
Proof.
  destruct (sentinel_never_dereferenced (H:=size_t_64) Z.eqb [7])
    as (_ & (st & r & p & _ & _ & Ep & _) & _).
  exists p. exact Ep.
Defined.

(** C8.  The confidence counter never wraps below zero.  For every
    iteration [n] of the scan, the state [st] on entry and the state [st']
    on exit exist and hold [size_t] values; when the confidence is zero the
    iteration resets the candidate to the current position and increments,
    and otherwise it keeps the candidate and either increments or takes
    one off a nonzero counter, which gives exactly [confidence - 1]. *)
Theorem confidence_never_underflows `{SizeT} {A : Type}
        (comp : A -> A -> bool) (l : list A) (n : nat) :
  (n < length l)%nat ->
  exists st st',
    vote_loop comp l n 0 (vote_init l) = Some st /\
    vote_step comp l n st = Some st' /\
    0 <= confidence st < size_modulus /\
    0 <= confidence st' < size_modulus /\
    (confidence st = 0 ->
     candidate st' = n /\ confidence st' = size_incr 0) /\
    (confidence st <> 0 ->
     candidate st' = candidate st /\
     exists c x,
       deref l (candidate st) = Some c /\ deref l n = Some x /\
       confidence st' =
         if comp c x then size_incr (confidence st) else confidence st - 1).
Proof.
  intros Hn.
  destruct (vote_loop_safe comp l n 0%nat (vote_init l)) as (st & E & Hs);
    [simpl; lia | apply vote_safe_init |].
  simpl in Hs.
  destruct (vote_step_safe comp l n st Hn Hs) as (st' & E' & Hs').
  exists st, st'. destruct Hs as [Hk Hcand]. destruct Hs' as [Hk' _].
  split; [exact E|]. split; [exact E'|]. split; [exact Hk|]. split; [exact Hk'|].
  unfold vote_step in E'. destruct (confidence st =? 0) eqn:E0.
  - apply Z.eqb_eq in E0. injection E' as <-. simpl. rewrite E0.
    split; [intros _; split; reflexivity | intros Hne; now elim Hne].
  - apply Z.eqb_neq in E0. split; [intros Hz; now elim E0|]. intros _.
    destruct (deref l (candidate st)) as [c|]; [|discriminate].
    destruct (deref l n) as [x|]; [|discriminate].
    destruct (comp c x) eqn:Ecx; injection E' as <-; simpl;
      (split; [reflexivity|]); exists c, x; rewrite Ecx;
      (split; [reflexivity|]); (split; [reflexivity|]).
    + reflexivity.
    + apply size_decr_pos. lia.
Qed.

Lemma confidence_never_underflows_witness :
  exists st st',
    vote_loop (H:=size_t_64) Z.eqb [3; 3; 4; 2; 3] 3 0 (vote_init [3; 3; 4; 2; 3]) = Some st /\
    vote_step (H:=size_t_64) Z.eqb [3; 3; 4; 2; 3] 3 st = Some st' /\
    0 <= confidence st /\ 0 <= confidence st'.
Proof.
  destruct (confidence_never_underflows (H:=size_t_64) Z.eqb [3; 3; 4; 2; 3] 3)
    as (st & st' & E & E' & Hk & Hk' & _).
  - simpl. lia.
  - exists st, st'. repeat split; [exact E | exact E' | apply Hk | apply Hk'].
Defined.

(** C9.  A result of [majority_element] other than [end] is a position of
    the range [[begin, end)], and can be dereferenced. *)
Theorem majority_element_in_range `{SizeT} {A : Type}
        (comp : A -> A -> bool) (l : list A) (p : nat) :
  majority_element comp l = Some p ->
  p <> length l ->
  (p < length l)%nat /\ exists e, deref l p = Some e.
Proof.
  intros Ep Hne.
  destruct (majority_vote_safe comp l) as (st & E & _).
  rewrite (majority_element_eq comp l st E) in Ep.
  assert (Hp : (p < length l)%nat).
  { destruct (majority_vote_candidate comp l st E) as [[-> ->]|Hlt].
    - simpl in *. injection Ep as <-. now elim Hne.
    - destruct (_ <? _) in Ep; injection Ep as <-; [exact Hlt | now elim Hne]. }
  split; [exact Hp | exact (deref_lt_Some l p Hp)].
Qed.

Lemma majority_element_in_range_witness :
  (8 < length [3; 3; 4; 2; 3; 3; 4; 2; 3])%nat /\
  exists e, deref [3; 3; 4; 2; 3; 3; 4; 2; 3] 8 = Some e.
Proof.
  apply (majority_element_in_range (H:=size_t_64) Z.eqb [3; 3; 4; 2; 3; 3; 4; 2; 3] 8).
  - vm_compute. reflexivity.
  - simpl. lia.
Defined.

(** C10.  On an empty range the equal range is empty and
    [is_majority_element] returns [false], for every value and every
    comparator. *)
Theorem is_majority_element_empty {A : Type} (comp : A -> A -> bool) (x : A) :
  equal_range comp [] x = Some (0%nat, 0%nat) /\
  (distance 0 0 >? Z.shiftr (distance 0 (length (@nil A))) 1) = false /\
  is_majority_element comp [] x = Some false.
Proof.
  assert (E : equal_range comp [] x = Some (0%nat, 0%nat)).
  { unfold equal_range, lower_bound, upper_bound. simpl length.
    simp lower_bound_loop upper_bound_loop. reflexivity. }
  split; [exact E|]. split; [reflexivity|].
  unfold is_majority_element. rewrite E. reflexivity.
Qed.

(** * The scenarios of the specification *)

Example majority_element_nine :
  majority_element (H:=size_t_64) Z.eqb [3; 3; 4; 2; 3; 3; 4; 2; 3] = Some 8%nat /\
  deref [3; 3; 4; 2; 3; 3; 4; 2; 3] 8 = Some 3.
Proof. split; vm_compute; reflexivity. Qed.

Example majority_element_all_distinct :
  majority_element (H:=size_t_64) Z.eqb [1; 2; 3; 4] = Some (length [1; 2; 3; 4]).
Proof. vm_compute. reflexivity. Qed.

Example majority_element_singleton :
  majority_element_default (H:=size_t_64) [7] = Some 0%nat /\ deref [7] 0 = Some 7.
Proof. split; vm_compute; reflexivity. Qed.

Example is_majority_element_three_of_five :
  is_majority_element_default [1; 1; 1; 2; 2] 1 = Some true.
Proof. vm_compute. reflexivity. Qed.

Example is_majority_element_two_of_five :
  is_majority_element_default [1; 1; 2; 2; 2] 1 = Some false.
Proof. vm_compute. reflexivity. Qed.

Example equal_range_middle :
  equal_range Z.ltb [1; 1; 1; 2; 2; 5; 5; 7] 2 = Some (3%nat, 5%nat).
Proof. vm_compute. reflexivity. Qed.

(** * Further properties of the two entry points *)

(** ** Shared lemmas *)

Section Verdict.
Context `{SizeT} {A : Type}.
Variable comp : A -> A -> bool.

(** A result other than [end] points at an element that matches more than
    half of the range. *)
Lemma majority_element_result l p :
  fits_size_t l ->
  majority_element comp l = Some p ->
  p <> length l ->
  exists e, deref l p = Some e /\ (length l < 2 * count_if (comp e) l)%nat.
Proof.
  intros Hfit Ep Hne.
  destruct (majority_vote_safe comp l) as (st & E & _).
  rewrite (majority_element_fits comp l st Hfit E), Nat_ltb_half in Ep.
  destruct (Nat.ltb_spec (length l) (2 * matches_at comp l (candidate st))) as [Hlt|Hge];
    injection Ep as <-; [|now elim Hne].
  unfold matches_at in Hlt.
  destruct (deref l (candidate st)) as [c|]; [|simpl in Hlt; lia].
  exists c. split; [reflexivity | exact Hlt].
Qed.

Hypothesis comp_sym : forall a b, comp a b = true -> comp b a = true.
Hypothesis comp_trans : forall a b c, comp a b = true -> comp b c = true -> comp a c = true.

(** A value matched by more than half of the range is found. *)
Lemma majority_element_found l v :
  fits_size_t l ->
  (length l < 2 * count_if (comp v) l)%nat ->
  exists p e, majority_element comp l = Some p /\ (p < length l)%nat /\
              deref l p = Some e /\ comp v e = true.
Proof.
  intros Hfit Hmaj.
  destruct (majority_vote_safe comp l) as (st & E & _).
  destruct (majority_vote_balance comp comp_sym comp_trans v l st Hfit Hmaj E)
    as (c & Ec & Evc).
  exists (candidate st), c.
  rewrite (majority_element_fits comp l st Hfit E), Nat_ltb_half.
  assert (Hcnt : (count_if (comp v) l <= matches_at comp l (candidate st))%nat).
  { unfold matches_at. rewrite Ec. apply count_if_mono. intros a _ Hva.
    exact (comp_trans c v a (comp_sym v c Evc) Hva). }
  replace (length l <? 2 * matches_at comp l (candidate st))%nat with true
    by (symmetry; apply Nat.ltb_lt; lia).
  repeat split; [exact (deref_Some_lt l _ c Ec) | exact Ec | exact Evc].
Qed.

End Verdict.

Section Counting.
Context {A : Type}.

Lemma count_if_all (p : A -> bool) l :
  (forall a, In a l -> p a = true) -> count_if p l = length l.
Proof.
  induction l as [|h l IH]; intros Hall; simpl; [reflexivity|].
  rewrite (Hall h (or_introl eq_refl)), IH; [reflexivity|].
  intros a Ha. apply Hall. now right.
Qed.

Lemma count_if_perm (p : A -> bool) l l' :
  Permutation l l' -> count_if p l = count_if p l'.
Proof.
  induction 1 as [|a l l' _ IH|a b l|l l' l'' _ IH1 _ IH2]; simpl.
  - reflexivity.
  - now rewrite IH.
  - destruct (p a), (p b); reflexivity.
  - congruence.
Qed.

(** Two predicates that exclude each other share the range. *)
Lemma count_if_disjoint (p q : A -> bool) l :
  (forall a, p a = true -> q a = true -> False) ->
  (count_if p l + count_if q l <= length l)%nat.
Proof.
  intros Hpq. induction l as [|h l IH]; simpl; [lia|].
  destruct (p h) eqn:Ep, (q h) eqn:Eq; try lia. elim (Hpq h Ep Eq).
Qed.

End Counting.

Lemma count_if_Z_eqb (l : list Z) (v : Z) :
  count_if (Z.eqb v) l = count_occ Z.eq_dec l v.
Proof.
  induction l as [|h l IH]; simpl; [reflexivity|].
  destruct (Z.eq_dec h v) as [->|Hne].
  - now rewrite Z.eqb_refl, IH.
  - replace (v =? h) with false; [exact IH|]. symmetry. apply Z.eqb_neq. congruence.
Qed.

Lemma Nat_half_bounds n : (n <= 2 * (n / 2) + 1)%nat.
Proof. pose proof (Nat.div_mod_eq n 2). pose proof (Nat.mod_upper_bound n 2). lia. Qed.

(** ** The vote and its confirmation *)

(** X1.  [majority_element] never reports a false majority: a result other
    than [end] points at an element that matches strictly more than half
    of the elements of the range, for any comparator; the length is a
    [size_t] value. *)
Theorem majority_element_sound `{SizeT} {A : Type}
        (comp : A -> A -> bool) (l : list A) (p : nat) :
  fits_size_t l ->
  majority_element comp l = Some p ->
  p <> length l ->
  exists e, deref l p = Some e /\ (length l < 2 * count_if (comp e) l)%nat.
Proof. apply majority_element_result. Qed.

Lemma majority_element_sound_witness :
  exists e, deref [2; 5; 5] 2 = Some e /\
            (3 < 2 * count_if (Z.eqb e) [2; 5; 5]%Z)%nat.
Proof.
  apply (majority_element_sound (H:=size_t_64) Z.eqb [2; 5; 5] 2).
  - unfold fits_size_t. vm_compute. reflexivity.
  - vm_compute. reflexivity.
  - simpl. lia.
Defined.

(** X2.  The scan alone already finds a majority: when [v] matches more
    than half of the elements, the scanning loop ends on a candidate that
    matches [v], with a confidence no smaller than the margin
    [2 * count - length] of the majority. *)
Theorem majority_vote_margin `{SizeT} {A : Type}
        (comp : A -> A -> bool) (l : list A) (v : A) :
  (forall a b, comp a b = true -> comp b a = true) ->
  (forall a b c, comp a b = true -> comp b c = true -> comp a c = true) ->
  fits_size_t l ->
  (length l < 2 * count_if (comp v) l)%nat ->
  exists st c,
    majority_vote comp l = Some st /\
    deref l (candidate st) = Some c /\ comp v c = true /\
    2 * Z.of_nat (count_if (comp v) l) - Z.of_nat (length l) <= confidence st.
Proof.
  intros Hsym Htrans Hfit Hmaj.
  destruct (majority_vote_safe comp l) as (st & E & Hk & _).
  assert (Hb : vote_balance comp v l (0 + length l) st).
  { apply (vote_loop_inv comp (vote_balance comp v l) l) with (st := vote_init l);
      [ | simpl; lia | apply vote_safe_init | apply vote_balance_init | exact E].
    intros it s s' Hit Hs Hb Es.
    now apply (vote_balance_step comp Hsym Htrans v l it s s'). }
  change (0 + length l)%nat with (length l) in Hb.
  unfold vote_balance in Hb. cbv zeta in Hb. rewrite firstn_all in Hb.
  destruct Hb as [_ [Hl|(c & Ec & Evc & Hr)]]; [lia|].
  exists st, c. repeat split; try assumption. lia.
Qed.

Lemma majority_vote_margin_witness :
  exists st c,
    majority_vote (H:=size_t_64) Z.eqb [5; 2; 5; 5; 5] = Some st /\
    deref [5; 2; 5; 5; 5] (candidate st) = Some c /\ Z.eqb 5 c = true /\
    2 * Z.of_nat (count_if (Z.eqb 5) [5; 2; 5; 5; 5]) - Z.of_nat (length [5; 2; 5; 5; 5])
    <= confidence st.
Proof.
  apply (majority_vote_margin (H:=size_t_64) Z.eqb [5; 2; 5; 5; 5] 5).
  - exact Z_eqb_sym.
  - exact Z_eqb_trans.
  - unfold fits_size_t. vm_compute. reflexivity.
  - simpl. lia.
Defined.

(** X3.  The confidence counts what has not been cancelled: after [n]
    iterations of the scan over a range whose length is a [size_t] value,
    [n = confidence + 2 * pairs] for some number of cancelled pairs.  So
    the counter never exceeds the number of elements scanned, and its
    increments never wrap. *)
Theorem confidence_cancelled_pairs `{SizeT} {A : Type}
        (comp : A -> A -> bool) (l : list A) (n : nat) :
  fits_size_t l ->
  (n <= length l)%nat ->
  exists st pairs,
    vote_loop comp l n 0 (vote_init l) = Some st /\
    0 <= pairs /\ 0 <= confidence st /\
    Z.of_nat n = confidence st + 2 * pairs.
Proof.
  intros Hfit Hn. unfold fits_size_t in Hfit.
  destruct (vote_loop_safe comp l n 0%nat (vote_init l)) as (st & E & Hs);
    [simpl; lia | apply vote_safe_init |].
  exists st.
  assert (HP : exists j, 0 <= j /\ Z.of_nat (0 + n) = confidence st + 2 * j).
  { apply (vote_loop_inv comp
             (fun it s => exists j, 0 <= j /\ Z.of_nat it = confidence s + 2 * j) l)
      with (st := vote_init l);
      [ | simpl; lia | apply vote_safe_init | exists 0; simpl; lia | exact E].
    intros it s s' Hit [Hk _] (j & Hj & Hij) Es. unfold vote_step in Es.
    destruct (confidence s =? 0) eqn:E0.
    - apply Z.eqb_eq in E0. injection Es as <-. cbn [candidate confidence]. rewrite E0 in *.
      unfold size_incr. rewrite size_wrap_small by lia. exists j. lia.
    - apply Z.eqb_neq in E0.
      destruct (deref l (candidate s)) as [c|]; [|discriminate].
      destruct (deref l it) as [x|]; [|discriminate].
      destruct (comp c x); injection Es as <-; cbn [candidate confidence].
      + unfold size_incr. rewrite size_wrap_small by lia. exists j. lia.
      + rewrite size_decr_pos by lia. exists (j + 1). lia. }
  destruct HP as (j & Hj & Hnj). destruct Hs as [Hk _].
  exists j. repeat split; try assumption; lia.
Qed.

Lemma confidence_cancelled_pairs_witness :
  exists st pairs,
    vote_loop (H:=size_t_64) Z.eqb [3; 3; 4; 2; 3] 4 0 (vote_init [3; 3; 4; 2; 3]) = Some st /\
    0 <= pairs /\ 0 <= confidence st /\
    Z.of_nat 4 = confidence st + 2 * pairs.
Proof.
  apply (confidence_cancelled_pairs (H:=size_t_64) Z.eqb [3; 3; 4; 2; 3] 4).
  - unfold fits_size_t. vm_compute. reflexivity.
  - simpl. lia.
Defined.

(** X4.  On a range of one element [majority_element] returns [begin] when
    the comparator matches the element with itself, and [end] when it
    does not; [size_t] holds the value 1. *)
Theorem majority_element_single `{SizeT} {A : Type}
        (comp : A -> A -> bool) (x : A) :
  fits_size_t [x] ->
  majority_element comp [x] = Some (if comp x x then 0 else 1)%nat.
Proof.
  intros Hfit.
  rewrite (majority_element_fits comp [x] {| candidate := 0; confidence := size_incr 0 |} Hfit)
    by reflexivity.
  unfold matches_at. simpl. destruct (comp x x); reflexivity.
Qed.

Lemma majority_element_single_witness :
  majority_element (H:=size_t_64) Z.eqb [7] = Some 0%nat.
Proof.
  apply (majority_element_single (H:=size_t_64) Z.eqb 7).
  unfold fits_size_t. vm_compute. reflexivity.
Defined.

(** X5.  The counters of the confirmation pass wrap: on a range of exactly
    [2 ^ size_bits] elements that all match one another, [ntotal] and
    [nmatches] both come back to [0] and [majority_element] returns [end],
    although every element is a majority element. *)
Theorem majority_element_wraps `{SizeT} {A : Type}
        (comp : A -> A -> bool) (l : list A) :
  Z.of_nat (length l) = size_modulus ->
  (forall a b, In a l -> In b l -> comp a b = true) ->
  majority_element comp l = Some (length l) /\
  forall cand c, deref l cand = Some c -> majority_confirm comp l cand = Some (0, 0).
Proof.
  intros Hlen Hall.
  assert (Hwrap : size_wrap (Z.of_nat (length l)) = 0).
  { rewrite Hlen. unfold size_wrap. apply Z_mod_same_full. }
  assert (Hconf : forall cand c, deref l cand = Some c ->
                                 majority_confirm comp l cand = Some (0, 0)).
  { intros cand c Ec. rewrite (majority_confirm_count comp l cand c Ec).
    rewrite (count_if_all (comp c) l), Hwrap; [reflexivity|].
    intros a Ha. apply Hall; [exact (deref_In l cand c Ec) | exact Ha]. }
  split; [|exact Hconf].
  destruct (majority_vote_safe comp l) as (st & E & _).
  unfold majority_element. rewrite E.
  destruct (majority_vote_candidate comp l st E) as [[-> ->]|Hlt]; [reflexivity|].
  destruct (deref_lt_Some l _ Hlt) as [c Ec].
  rewrite (Hconf _ c Ec). reflexivity.
Qed.

Lemma majority_element_wraps_witness :
  majority_element (H:=2%N) Z.eqb [7; 7; 7; 7] = Some 4%nat.
Proof.
  apply (majority_element_wraps (H:=2%N) Z.eqb [7; 7; 7; 7]).
  - vm_compute. reflexivity.
  - intros a b [<-|[<-|[<-|[<-|[]]]]] [<-|[<-|[<-|[<-|[]]]]]; reflexivity.
Defined.

(** ** The sorted-range check *)

Section SearchBounds.
Context {A : Type}.
Variable comp : A -> A -> bool.



End SearchBounds.


Section InducedEquality.
Context {A : Type}.
Variables less eqv : A -> A -> bool.
Hypothesis less_swo : strict_weak_order less.
Hypothesis eqv_induced :
  forall a b, eqv a b = true <-> less a b = false /\ less b a = false.

Lemma eqv_sym a b : eqv a b = true -> eqv b a = true.
Proof. intros E. apply eqv_induced in E as [E1 E2]. apply eqv_induced. now split. Qed.

Lemma eqv_trans a b c : eqv a b = true -> eqv b c = true -> eqv a c = true.
Proof.
  intros Eab Ebc. apply eqv_induced in Eab as [E1 E2]. apply eqv_induced in Ebc as [E3 E4].
  apply eqv_induced. exact (swo_equiv_trans less less_swo a b c E1 E2 E3 E4).
Qed.

Lemma count_if_eqv_flip l x :
  count_if (fun e => eqv e x) l = count_if (eqv x) l.
Proof.
  apply count_if_ext. intros a.
  destruct (eqv a x) eqn:E1, (eqv x a) eqn:E2; try reflexivity.
  - rewrite (eqv_sym a x E1) in E2. discriminate.
  - rewrite (eqv_sym x a E2) in E1. discriminate.
Qed.

(** The sorted-range check counts the elements equal to [x]. *)
Lemma is_majority_element_induced l x :
  sorted_range less l ->
  is_majority_element less l x = Some (length l / 2 <? count_if (eqv x) l)%nat.
Proof.
  intros Hs. rewrite (is_majority_element_equiv less less_swo l x Hs).
  rewrite <- count_if_eqv_flip. do 2 f_equal. apply count_if_ext. intros a.
  destruct (eqv a x) eqn:E.
  - apply eqv_induced in E as [-> ->]. reflexivity.
  - destruct (less a x) eqn:E1; [reflexivity|].
    destruct (less x a) eqn:E2; [reflexivity|].
    assert (Et : eqv a x = true) by (apply eqv_induced; now split). congruence.
Qed.

End InducedEquality.

Lemma Sorted_Z_le_sorted_range (l : list Z) : Sorted Z.le l -> sorted_range Z.ltb l.
Proof.
  unfold sorted_range. induction 1 as [|a l _ IH Hd]; constructor; [exact IH|].
  destruct Hd; constructor. apply Z.ltb_ge. assumption.
Qed.

(** X7.  A sorted range has at most one majority under the sorted-range
    check: two values that [is_majority_element] both accepts are
    equivalent, neither being less than the other. *)
Theorem is_majority_element_unique {A : Type}
        (less : A -> A -> bool) (l : list A) (x y : A) :
  strict_weak_order less ->
  sorted_range less l ->
  is_majority_element less l x = Some true ->
  is_majority_element less l y = Some true ->
  less x y = false /\ less y x = false.
Proof.
  intros Hswo Hs Ex Ey.
  rewrite (is_majority_element_equiv less Hswo l x Hs) in Ex.
  rewrite (is_majority_element_equiv less Hswo l y Hs) in Ey.
  injection Ex as Ex. injection Ey as Ey. apply Nat.ltb_lt in Ex, Ey.
  change (fst (Nat.divmod (length l) 1 0 1)) with (length l / 2)%nat in Ex, Ey.
  destruct (less x y) eqn:Exy, (less y x) eqn:Eyx; [exfalso .. | now split].
  all: pose proof (Nat_half_bounds (length l)) as Hhalf.
  all: pose proof (count_if_disjoint
                     (fun e => negb (less e x) && negb (less x e))
                     (fun e => negb (less e y) && negb (less y e)) l) as Hd.
  all: assert (Hdis : (count_if (fun e => negb (less e x) && negb (less x e)) l +
                       count_if (fun e => negb (less e y) && negb (less y e)) l
                       <= length l)%nat);
    [apply Hd; intros a Hax Hay;
     apply andb_true_iff in Hax as [H1 H2]; apply andb_true_iff in Hay as [H3 H4];
     apply negb_true_iff in H1, H2, H3, H4;
     destruct (swo_equiv_trans less Hswo x a y H2 H1 H3 H4); congruence
    | lia].
Qed.

Lemma is_majority_element_unique_witness :
  Z.ltb 1 1 = false /\ Z.ltb 1 1 = false.
Proof.
  apply (is_majority_element_unique Z.ltb [1; 1; 1; 2; 2] 1 1).
  - exact Z_ltb_strict_weak_order.
  - unfold sorted_range. repeat constructor.
  - vm_compute. reflexivity.
  - vm_compute. reflexivity.
Defined.

(** ** The two entry points together *)

(** X8.  On a sorted range the two entry points agree.  With [less] a
    strict weak order, [eqv] the equality it induces, and a length that is
    a [size_t] value: when [majority_element] returns [end] the sorted
    check rejects every value, and when it returns a position the sorted
    check accepts the element there. *)
Theorem entry_points_agree `{SizeT} {A : Type}
        (less eqv : A -> A -> bool) (l : list A) :
  strict_weak_order less ->
  (forall a b, eqv a b = true <-> less a b = false /\ less b a = false) ->
  sorted_range less l ->
  fits_size_t l ->
  exists p,
    majority_element eqv l = Some p /\
    (p = length l -> forall x, is_majority_element less l x = Some false) /\
    (forall e, deref l p = Some e -> is_majority_element less l e = Some true).
Proof.
  intros Hswo Heqv Hs Hfit.
  destruct (majority_element_total eqv l) as [p Ep]. exists p.
  split; [exact Ep|]. split.
  - intros -> x. rewrite (is_majority_element_induced less eqv Hswo Heqv l x Hs).
    f_equal. rewrite Nat_ltb_half. apply Nat.ltb_ge.
    destruct (Nat.le_gt_cases (2 * count_if (eqv x) l) (length l)) as [Hle|Hgt];
      [exact Hle|]. exfalso.
    destruct (majority_element_found eqv (eqv_sym less eqv Heqv)
                (eqv_trans less eqv Hswo Heqv) l x Hfit Hgt) as (p' & e & Ep' & Hp' & _).
    rewrite Ep in Ep'. injection Ep' as <-. lia.
  - intros e Ee. pose proof (deref_Some_lt l p e Ee) as Hp.
    destruct (majority_element_result eqv l p Hfit Ep) as (e' & Ee' & Hmaj); [lia|].
    rewrite Ee in Ee'. injection Ee' as <-.
    rewrite (is_majority_element_induced less eqv Hswo Heqv l e Hs).
    f_equal. rewrite Nat_ltb_half. now apply Nat.ltb_lt.
Qed.

Lemma entry_points_agree_witness :
  exists p,
    majority_element (H:=size_t_64) Z.eqb [1; 1; 1; 2; 2] = Some p /\
    (p = 5%nat -> forall x, is_majority_element Z.ltb [1; 1; 1; 2; 2] x = Some false) /\
    (forall e, deref [1; 1; 1; 2; 2] p = Some e ->
               is_majority_element Z.ltb [1; 1; 1; 2; 2] e = Some true).
Proof.
  apply (entry_points_agree (H:=size_t_64) Z.ltb Z.eqb [1; 1; 1; 2; 2]).
  - exact Z_ltb_strict_weak_order.
  - exact Z_eqb_equiv_ltb.
  - unfold sorted_range. repeat constructor.
  - unfold fits_size_t. vm_compute. reflexivity.
Defined.

(** X9.  The answer of [majority_element] does not depend on the order of
    the elements.  For an equality comparator and two ranges with the same
    elements in any order, either both calls return [end] or both return
    a position, and then the two elements found match. *)
Theorem majority_element_permutation `{SizeT} {A : Type}
        (comp : A -> A -> bool) (l l' : list A) :
  (forall a b, comp a b = true -> comp b a = true) ->
  (forall a b c, comp a b = true -> comp b c = true -> comp a c = true) ->
  fits_size_t l ->
  Permutation l l' ->
  exists p p',
    majority_element comp l = Some p /\
    majority_element comp l' = Some p' /\
    (p = length l <-> p' = length l') /\
    (forall e e', deref l p = Some e -> deref l' p' = Some e' -> comp e e' = true).
Proof.
  intros Hsym Htrans Hfit Hperm.
  pose proof (Permutation_length Hperm) as Hlen.
  assert (Hfit' : fits_size_t l') by (unfold fits_size_t in *; now rewrite <- Hlen).
  destruct (majority_element_total comp l) as [p Ep].
  destruct (majority_element_total comp l') as [p' Ep'].
  assert (Hmove : forall (l1 l2 : list A) p1 p2,
            Permutation l1 l2 -> fits_size_t l1 -> fits_size_t l2 ->
            majority_element comp l1 = Some p1 -> majority_element comp l2 = Some p2 ->
            p1 <> length l1 ->
            p2 <> length l2 /\
            forall e1 e2, deref l1 p1 = Some e1 -> deref l2 p2 = Some e2 ->
                          comp e1 e2 = true).
  { intros l1 l2 p1 p2 H12 Hf1 Hf2 E1 E2 Hne.
    destruct (majority_element_result comp l1 p1 Hf1 E1 Hne) as (e & Ee & Hmaj).
    rewrite (count_if_perm (comp e) l1 l2 H12), (Permutation_length H12) in Hmaj.
    destruct (majority_element_found comp Hsym Htrans l2 e Hf2 Hmaj)
      as (q & e2 & Eq & Hq & Ee2 & Hee2).
    rewrite E2 in Eq. injection Eq as <-. split; [lia|].
    intros e1 e2' He1 He2. congruence. }
  exists p, p'. split; [exact Ep|]. split; [exact Ep'|]. split; [split|].
  - intros Hp. destruct (Nat.eq_dec p' (length l')) as [Heq|Hne]; [exact Heq|].
    destruct (Hmove l' l p' p (Permutation_sym Hperm) Hfit' Hfit Ep' Ep Hne) as [Hc _].
    now elim Hc.
  - intros Hp'. destruct (Nat.eq_dec p (length l)) as [Heq|Hne]; [exact Heq|].
    destruct (Hmove l l' p p' Hperm Hfit Hfit' Ep Ep' Hne) as [Hc _]. now elim Hc.
  - intros e e' Ee Ee'. pose proof (deref_Some_lt l p e Ee) as Hp.
    destruct (Hmove l l' p p' Hperm Hfit Hfit' Ep Ep') as [_ Hm]; [lia|].
    exact (Hm e e' Ee Ee').
Qed.

Lemma majority_element_permutation_witness :
  exists p p',
    majority_element (H:=size_t_64) Z.eqb [5; 2; 5] = Some p /\
    majority_element (H:=size_t_64) Z.eqb [2; 5; 5] = Some p' /\
    (p = 3%nat <-> p' = 3%nat) /\
    (forall e e', deref [5; 2; 5] p = Some e -> deref [2; 5; 5] p' = Some e' ->
                  Z.eqb e e' = true).
Proof.
  apply (majority_element_permutation (H:=size_t_64) Z.eqb [5; 2; 5] [2; 5; 5]).
  - exact Z_eqb_sym.
  - exact Z_eqb_trans.
  - unfold fits_size_t. vm_compute. reflexivity.
  - apply perm_swap.
Defined.

(** ** The overloads without a comparator, on integers *)

(** X10.  [majority_element(begin, end)] on integers decides the majority
    question.  For a range whose length is a [size_t] value it returns
    either [end], and then no integer occupies more than half of the
    positions, or a position whose value occupies more than half of
    them. *)
Theorem majority_element_default_Z `{SizeT} (l : list Z) :
  fits_size_t l ->
  exists p,
    majority_element_default l = Some p /\
    ((p = length l /\ forall v, (2 * count_occ Z.eq_dec l v <= length l)%nat) \/
     (exists v, nth_error l p = Some v /\
                (length l < 2 * count_occ Z.eq_dec l v)%nat)).
Proof.
  intros Hfit. unfold majority_element_default. cbn [std_equal_to Z_value_type].
  destruct (majority_element_total Z.eqb l) as [p Ep]. exists p.
  split; [exact Ep|].
  destruct (Nat.eq_dec p (length l)) as [->|Hne].
  - left. split; [reflexivity|]. intros v. rewrite <- count_if_Z_eqb.
    destruct (Nat.le_gt_cases (2 * count_if (Z.eqb v) l) (length l)) as [Hle|Hgt];
      [exact Hle|]. exfalso.
    destruct (majority_element_found Z.eqb Z_eqb_sym Z_eqb_trans l v Hfit Hgt)
      as (p' & e & Ep' & Hp' & _).
    rewrite Ep in Ep'. injection Ep' as <-. lia.
  - right. destruct (majority_element_result Z.eqb l p Hfit Ep Hne) as (e & Ee & Hmaj).
    exists e. rewrite <- count_if_Z_eqb. split; [exact Ee | exact Hmaj].
Qed.

Lemma majority_element_default_Z_witness :
  exists p,
    majority_element_default (H:=size_t_64) [4; 4; 9] = Some p /\
    ((p = 3%nat /\ forall v, (2 * count_occ Z.eq_dec [4; 4; 9]%Z v <= 3)%nat) \/
     (exists v, nth_error [4; 4; 9] p = Some v /\
                (3 < 2 * count_occ Z.eq_dec [4; 4; 9]%Z v)%nat)).
Proof.
  apply (majority_element_default_Z (H:=size_t_64) [4; 4; 9]).
  unfold fits_size_t. vm_compute. reflexivity.
Defined.

(** X11.  [is_majority_element(begin, end, x)] on a non-decreasing range
    of integers is the count of the occurrences of [x] compared with half
    the length. *)
Theorem is_majority_element_default_Z (l : list Z) (x : Z) :
  Sorted Z.le l ->
  is_majority_element_default l x =
  Some (length l / 2 <? count_occ Z.eq_dec l x)%nat.
Proof.
  intros Hs. unfold is_majority_element_default. cbn [std_less Z_value_type].
  rewrite (is_majority_element_induced Z.ltb Z.eqb Z_ltb_strict_weak_order
             Z_eqb_equiv_ltb l x (Sorted_Z_le_sorted_range l Hs)).
  now rewrite count_if_Z_eqb.
Qed.

Lemma is_majority_element_default_Z_witness :
  is_majority_element_default [1; 1; 2; 2; 2] 2 = Some true.
Proof.
  apply (is_majority_element_default_Z [1; 1; 2; 2; 2] 2).
  repeat constructor; vm_compute; discriminate.
Defined.
